(** * shared_future_adaptor: a memoizing, copyable view of a move-only future

    A shallow embedding of [shared_future_adaptor.hpp].  The adaptor holds a
    [std::shared_ptr] to a [std::variant<Future, result_type>]; the pointees
    live in a store shared by every copy of the adaptor, and each member
    function is a function from the store to an outcome and a new store.
    Every call the adaptor makes on the wrapped future is recorded in a
    trace, which plays the part of an instrumented future counting its
    invocations. *)

From Stdlib Require Import Bool Arith Lia List.
From stdpp Require Import base list.
Import ListNotations.

Set Implicit Arguments.

(** ** The capability contract of the template parameter [Future]

    [Future] is move-only (the [static_assert]); the adaptor calls
    [is_valid], [is_ready], [wait] and [get] on it and move-constructs
    it.  The two queries are observations.  [wait] takes the future by
    non-const reference, so it may change it.  [get] consumes the future and
    either yields a result or throws.  Move construction yields the new
    object and the moved-from remains of the old one. *)

Class UniqueFuture (Future result_type exn : Type) : Type := {
  fut_is_valid : Future -> bool;
  fut_is_ready : Future -> bool;
  fut_wait : Future -> Future;
  fut_get : Future -> (exn + result_type) * Future;
  fut_move : Future -> Future * Future
}.

(** Addresses of the variants allocated by [std::make_shared]. *)
Abbreviation loc := nat.

(** A [result_type&] into a variant: the address of the variant.  It
    designates a result as long as the variant holds one. *)
Abbreviation reference := loc.

(** The member functions of [Future] that the adaptor calls. *)
Inductive call : Type :=
| call_is_valid
| call_move
| call_is_ready
| call_wait
| call_get.

(** Where the future a call is made on lives: still in the caller's hands
    (the constructor's argument), or inside the variant at an address. *)
Inductive target : Type :=
| in_source
| in_cell (l : loc).

Definition event : Type := (target * call)%type.

Definition call_eqb (c d : call) : bool :=
  match c, d with
  | call_is_valid, call_is_valid
  | call_move, call_move
  | call_is_ready, call_is_ready
  | call_wait, call_wait
  | call_get, call_get => true
  | _, _ => false
  end.

Definition target_eqb (s t : target) : bool :=
  match s, t with
  | in_source, in_source => true
  | in_cell l, in_cell k => Nat.eqb l k
  | _, _ => false
  end.

Definition event_eqb (e f : event) : bool :=
  target_eqb (fst e) (fst f) && call_eqb (snd e) (snd f).

(** Number of times an event occurs in a trace. *)
Definition occurrences (e : event) (tr : list event) : nat :=
  length (List.filter (event_eqb e) tr).

Section Adaptor.

Context {Future result_type exn : Type}.
Context {F : UniqueFuture Future result_type exn}.

(** [using state_type = std::variant<Future,result_type>]. *)
Inductive state_type : Type :=
| Pending (underlying_future : Future)
| Ready (result : result_type).

(** The alternative a variant holds ([std::variant::index]). *)
Inductive shape : Type := PendingShape | ReadyShape.

Definition shape_of (s : state_type) : shape :=
  match s with
  | Pending _ => PendingShape
  | Ready _ => ReadyShape
  end.

(** The store of shared variants, and the trace of calls made on the
    wrapped futures. *)
Record world : Type := World {
  heap : list state_type;
  calls : list event
}.

(** [std::shared_ptr<state_type> variant_ptr_]: empty, or the address of a
    variant. *)
Record shared_future_adaptor : Type := Adaptor {
  variant_ptr_ : option loc
}.

(** What a call does: it returns, it lets an exception of the wrapped
    future escape, it has undefined behaviour (an empty or dangling
    pointer is dereferenced), or the evaluation budget of the model ran
    out. *)
Inductive outcome (A : Type) : Type :=
| Returns (a : A) (w : world)
| Throws (e : exn) (w : world)
| Undefined
| OutOfFuel.

Arguments Undefined {A}.
Arguments OutOfFuel {A}.
Arguments Throws {A} e w.

Definition log (e : event) (w : world) : world :=
  World (heap w) (calls w ++ [e]).

Definition store (l : loc) (s : state_type) (w : world) : world :=
  World (<[l := s]> (heap w)) (calls w).

Definition shape_at (w : world) (l : loc) : option shape :=
  shape_of <$> heap w !! l.

(** How often the consuming retrieval was called on the future of cell
    [l]. *)
Definition retrievals (l : loc) (w : world) : nat :=
  occurrences (in_cell l, call_get) (calls w).

(** The result a reference designates, if the variant holds one. *)
Definition deref (w : world) (r : reference) : option result_type :=
  match heap w !! r with
  | Some (Ready result) => Some result
  | _ => None
  end.

(** *** Constructor

    [if(unique_future.is_valid())
       variant_ptr_ = std::make_shared<variant_type>(std::move(unique_future));]
    The second component of the result is the caller's future after the
    call. *)
Definition construct (unique_future : Future) (w : world)
  : outcome (shared_future_adaptor * Future) :=
  let w1 := log (in_source, call_is_valid) w in
  if fut_is_valid unique_future then
    let '(inner, remains) := fut_move unique_future in
    let w2 := log (in_source, call_move) w1 in
    let l := length (heap w2) in
    Returns (Adaptor (Some l), remains)
            (World (heap w2 ++ [Pending inner]) (calls w2))
  else
    Returns (Adaptor None, unique_future) w1.

(** The implicitly defined copy constructor copies the [shared_ptr]. *)
Definition copy (a : shared_future_adaptor) : shared_future_adaptor :=
  Adaptor (variant_ptr_ a).

(** The adaptors obtained from [a] by copying, any number of times. *)
Inductive copy_of (a : shared_future_adaptor) : shared_future_adaptor -> Prop :=
| copy_of_self : copy_of a a
| copy_of_copy b : copy_of a b -> copy_of a (copy b).

(** *** valid *)
Definition valid (a : shared_future_adaptor) : bool :=
  match variant_ptr_ a with
  | Some _ => true
  | None => false
  end.

(** *** is_ready

    [is_ready_visitor] answers [true] on a result, and asks the future
    otherwise. *)
Definition is_ready_visitor (l : loc) (s : state_type) (w : world)
  : outcome bool :=
  match s with
  | Ready _ => Returns true w
  | Pending underlying_future =>
      Returns (fut_is_ready underlying_future)
              (log (in_cell l, call_is_ready) w)
  end.

(** [return std::visit(is_ready_visitor(), *variant_ptr_);] *)
Definition is_ready (a : shared_future_adaptor) (w : world) : outcome bool :=
  match variant_ptr_ a with
  | None => Undefined
  | Some l =>
      match heap w !! l with
      | None => Undefined
      | Some s => is_ready_visitor l s w
      end
  end.

(** *** wait

    [wait_visitor] does nothing on a result, and calls the future's
    [wait] otherwise. *)
Definition wait_visitor (l : loc) (s : state_type) (w : world)
  : outcome unit :=
  match s with
  | Ready _ => Returns tt w
  | Pending underlying_future =>
      Returns tt (store l (Pending (fut_wait underlying_future))
                        (log (in_cell l, call_wait) w))
  end.

(** [std::visit(wait_visitor(), *variant_ptr_);] *)
Definition wait (a : shared_future_adaptor) (w : world) : outcome unit :=
  match variant_ptr_ a with
  | None => Undefined
  | Some l =>
      match heap w !! l with
      | None => Undefined
      | Some s => wait_visitor l s w
      end
  end.

(** *** get

    [get_visitor], lines 99-119: a visit of the variant [self] by the
    visitor, the call the visitor itself makes at line 117 ([std::visit]
    with the visitor [*this] first and the variant [self] second).  On a
    result the visitor returns a reference to it.  On a future it calls
    the future's [get]; an exception leaves the function there, with the
    consumed future still in the variant; otherwise the result is assigned
    to the variant and the visitor visits the variant again.  The
    recursion of the visitor through [std::visit] is bounded by [fuel]. *)
Fixpoint visit_get (fuel : nat) (self : loc) (w : world)
  : outcome reference :=
  match fuel with
  | O => OutOfFuel
  | S fuel' =>
      match heap w !! self with
      | None => Undefined
      | Some (Ready _) => Returns self w
      | Some (Pending underlying_future) =>
          let '(produced, consumed) := fut_get underlying_future in
          let w1 := store self (Pending consumed)
                          (log (in_cell self, call_get) w) in
          match produced with
          | inl e => Throws e w1
          | inr result =>
              let w2 := store self (Ready result) w1 in
              visit_get fuel' self w2
          end
      end
  end.

(** The member function [get()], line 124, applies [std::visit] to
    [*variant_ptr_] first and [get_visitor{*this}] second: the variant
    stands where the visitor belongs and the visitor where the variant
    belongs, and the visitor's [self], a reference to a variant, is
    initialized from the adaptor.  That statement is ill-formed for every
    [Future]: [get()] as written cannot be instantiated and has no
    behaviour to embed.

    [get_fuel] is not that statement.  It is the statement with the slip
    repaired after the pattern of [is_ready()] (line 66), [wait()] (line
    95) and the visitor's own call (line 117): the visitor first, the
    pointee of [variant_ptr_] second, [self] bound to that pointee.  It is
    what [op_get] executes in the runs below, so that what is proved of
    all runs also covers the repaired member function.  The memoization
    itself is stated and proved of [visit_get], the visitor as written.
    [fuel] is the evaluation budget of the visits. *)
Definition get_fuel (fuel : nat) (a : shared_future_adaptor) (w : world)
  : outcome reference :=
  match variant_ptr_ a with
  | None => Undefined
  | Some l => visit_get fuel l w
  end.

(** The repaired [get()] of the comment above, with the budget fixed: the
    visitor visits at most twice ([visit_get_enough] below), so two units
    are enough for every call. *)
Definition get (a : shared_future_adaptor) (w : world) : outcome reference :=
  get_fuel 2 a w.

End Adaptor.

Arguments state_type : clear implicits.
Arguments world : clear implicits.
Arguments outcome : clear implicits.
Arguments Pending {Future result_type} underlying_future.
Arguments Ready {Future result_type} result.
Arguments World {Future result_type} heap calls.
Arguments Returns {Future result_type exn A} a w.
Arguments Throws {Future result_type exn A} e w.
Arguments Undefined {Future result_type exn A}.
Arguments OutOfFuel {Future result_type exn A}.

(** ** Sequential use: operations, runs and shape changes *)

Section Runs.

Context {Future result_type exn : Type}.
Context {F : UniqueFuture Future result_type exn}.

#[local] Abbreviation world := (world Future result_type).
#[local] Abbreviation outcome := (outcome Future result_type exn).

(** What a holder can do with the adaptor. *)
Inductive op : Type :=
| op_construct (unique_future : Future)
| op_copy (a : shared_future_adaptor)
| op_valid (a : shared_future_adaptor)
| op_is_ready (a : shared_future_adaptor)
| op_wait (a : shared_future_adaptor)
| op_get (a : shared_future_adaptor).

(** The store a call leaves behind; none after undefined behaviour. *)
Definition after {A : Type} (o : outcome A) : option world :=
  match o with
  | Returns _ w => Some w
  | Throws e w => Some w
  | Undefined => None
  | OutOfFuel => None
  end.

Definition exec (o : op) (w : world) : option world :=
  match o with
  | op_construct f => after (construct f w)
  | op_copy a => Some w
  | op_valid a => Some w
  | op_is_ready a => after (is_ready a w)
  | op_wait a => after (wait a w)
  | op_get a => after (get a w)
  end.

(** The successive stores of a run, the first one included; none if some
    operation of the run has undefined behaviour. *)
Fixpoint history (ops : list op) (w : world) : option (list world) :=
  match ops with
  | [] => Some [w]
  | o :: ops' =>
      match exec o w with
      | None => None
      | Some w' =>
          match history ops' w' with
          | None => None
          | Some ws => Some (w :: ws)
          end
      end
  end.

(** The store at the end of a run. *)
Fixpoint run (ops : list op) (w : world) : option world :=
  match ops with
  | [] => Some w
  | o :: ops' =>
      match exec o w with
      | None => None
      | Some w' => run ops' w'
      end
  end.

Definition shape_eqb (s t : shape) : bool :=
  match s, t with
  | PendingShape, PendingShape | ReadyShape, ReadyShape => true
  | _, _ => false
  end.

(** The cell at [l] exists in [u] and holds another alternative in [v]. *)
Definition changes_shape (l : loc) (u v : world) : bool :=
  match shape_at u l, shape_at v l with
  | Some s, Some t => negb (shape_eqb s t)
  | Some _, None => true
  | None, _ => false
  end.

(** Number of shape changes of the cell at [l] along successive stores. *)
Fixpoint transitions (l : loc) (ws : list world) : nat :=
  match ws with
  | u :: (v :: _) as rest =>
      (if changes_shape l u v then 1 else 0) + transitions l rest
  | _ => 0
  end.

(** The adaptor points to one of the first [n] variants. *)
Definition points_below (n : nat) (a : shared_future_adaptor) : bool :=
  match variant_ptr_ a with
  | Some l => l <? n
  | None => false
  end.

(** A run without [get()] in which every adaptor that [is_ready()] or
    [wait()] dereferences points to a variant allocated by then, [n] being
    the number of variants before the run: each construction from a valid
    future allocates one more. *)
Fixpoint usable (n : nat) (ops : list op) : bool :=
  match ops with
  | [] => true
  | op_construct f :: ops' => usable (if fut_is_valid f then S n else n) ops'
  | op_copy _ :: ops' => usable n ops'
  | op_valid _ :: ops' => usable n ops'
  | op_is_ready a :: ops' => points_below n a && usable n ops'
  | op_wait a :: ops' => points_below n a && usable n ops'
  | op_get _ :: _ => false
  end.

End Runs.

(** ** Overlapping visits by [get_visitor]

    [get_visitor] takes no lock and uses no atomic operation, so visits of
    one variant by several threads interleave statement by statement.  A
    thread visiting the variant is at one of the following points. *)

Section Threads.

Context {Future result_type exn : Type}.
Context {F : UniqueFuture Future result_type exn}.

#[local] Abbreviation world := (world Future result_type).

Inductive pc : Type :=
| at_visit                       (* about to [std::visit] the variant *)
| at_retrieve                    (* in [operator()(Future&)], before
                                    [underlying_future.get()] *)
| at_assign (result : result_type) (* before [self = std::move(result)] *)
| returned (r : reference)
| threw (e : exn).


(** One statement of a thread visiting the variant at [self]; [None] is
    undefined behaviour.  At [at_retrieve] the thread holds a reference to
    the future inside the variant: if the variant holds a result by then,
    the reference dangles. *)
Definition thread_step (self : loc) (p : pc) (w : world)
  : option (pc * world) :=
  match p with
  | at_visit =>
      match heap w !! self with
      | None => None
      | Some (Ready _) => Some (returned self, w)
      | Some (Pending _) => Some (at_retrieve, w)
      end
  | at_retrieve =>
      match heap w !! self with
      | Some (Pending underlying_future) =>
          let '(produced, consumed) := fut_get underlying_future in
          let w1 := store self (Pending consumed)
                          (log (in_cell self, call_get) w) in
          match produced with
          | inl e => Some (threw e, w1)
          | inr result => Some (at_assign result, w1)
          end
      | _ => None
      end
  | at_assign result => Some (at_visit, store self (Ready result) w)
  | returned r => Some (returned r, w)
  | threw e => Some (threw e, w)
  end.

(** The threads, all visiting the same variant, and the store. *)
Definition config : Type := (list pc * world)%type.

(** Thread [i] executes its next statement. *)
Definition sched_step (self : loc) (i : nat) (c : config) : option config :=
  match fst c !! i with
  | None => Some c
  | Some p =>
      match thread_step self p (snd c) with
      | None => None
      | Some (p', w') => Some (<[i := p']> (fst c), w')
      end
  end.

Fixpoint run_schedule (self : loc) (sched : list nat) (c : config)
  : option config :=
  match sched with
  | [] => Some c
  | i :: sched' =>
      match sched_step self i c with
      | None => None
      | Some c' => run_schedule self sched' c'
      end
  end.

(** [n] threads that are each about to visit the variant. *)
Definition entering (n : nat) (w : world) : config :=
  (replicate n at_visit, w).

(** A visit is at most four statements long. *)
Definition whole_call (i : nat) : list nat := replicate 4 i.

(** The schedule in which threads [i], [i+1], ..., [i+n-1] visit the variant
    one after the other, each visit running to completion before the next
    starts. *)
Definition serial (i n : nat) : list nat :=
  flat_map whole_call (seq i n).


End Threads.

(** ** An instrumented future

    An instance of the contract in the manner of [std::future<nat>]: a
    handle that may refer to a shared state, which is complete or not and
    will yield a number or an error. *)

Module Instrumented.

Inductive error : Type :=
| no_state
| broken_promise.

Record future : Type := Fut {
  has_state : bool;
  completed : bool;
  payload : error + nat
}.

Definition future_is_valid (f : future) : bool := has_state f.

Definition future_is_ready (f : future) : bool := has_state f && completed f.

Definition future_wait (f : future) : future :=
  if has_state f then Fut true true (payload f) else f.

Definition release (f : future) : future :=
  Fut false (completed f) (payload f).

Definition future_get (f : future) : (error + nat) * future :=
  if has_state f then (payload f, release f) else (inl no_state, f).

Definition future_move (f : future) : future * future := (f, release f).

#[export] Instance future_contract : UniqueFuture future nat error := {
  fut_is_valid := future_is_valid;
  fut_is_ready := future_is_ready;
  fut_wait := future_wait;
  fut_get := future_get;
  fut_move := future_move
}.

(** A running computation that will yield 42, one that will fail, and an
    empty handle. *)
Definition yields_42 : future := Fut true false (inr 42).
Definition will_fail : future := Fut true false (inl broken_promise).
Definition empty : future := Fut false false (inl no_state).

Definition nothing : world future nat := World [] [].

(** The store after constructing an adaptor from [yields_42]. *)
Definition one_pending : world future nat :=
  World [Pending yields_42] [(in_source, call_is_valid); (in_source, call_move)].

Definition one_failing : world future nat :=
  World [Pending will_fail] [(in_source, call_is_valid); (in_source, call_move)].

Definition handle : shared_future_adaptor := Adaptor (Some 0).
Definition no_handle : shared_future_adaptor := Adaptor None.

End Instrumented.

(** * Properties *)

Section Properties.

Context {Future result_type exn : Type}.
Context {F : UniqueFuture Future result_type exn}.

#[local] Abbreviation world := (world Future result_type).
#[local] Abbreviation outcome := (outcome Future result_type exn).

Implicit Types (w : world) (l k : loc) (a b : shared_future_adaptor).

(** ** The trace *)

Lemma occurrences_app e tr1 tr2 :
  occurrences e (tr1 ++ tr2) = occurrences e tr1 + occurrences e tr2.
Proof.
  unfold occurrences. by rewrite List.filter_app, length_app.
Qed.

Lemma event_eqb_refl e : event_eqb e e = true.
Proof.
  destruct e as [[|l] []]; unfold event_eqb; simpl;
    rewrite ?Nat.eqb_refl; reflexivity.
Qed.

Lemma retrievals_log_get l w :
  retrievals l (log (in_cell l, call_get) w) = S (retrievals l w).
Proof.
  unfold retrievals, log; simpl. rewrite occurrences_app.
  unfold occurrences at 2; simpl. rewrite event_eqb_refl; simpl. lia.
Qed.

Lemma retrievals_log_other l e w :
  event_eqb (in_cell l, call_get) e = false ->
  retrievals l (log e w) = retrievals l w.
Proof.
  intros He. unfold retrievals, log; simpl. rewrite occurrences_app.
  unfold occurrences at 2; simpl. rewrite He; simpl. lia.
Qed.

Lemma retrievals_log_call l t c w :
  call_eqb call_get c = false ->
  retrievals l (log (t, c) w) = retrievals l w.
Proof.
  intros Hc. apply retrievals_log_other.
  unfold event_eqb; cbn [fst snd]. rewrite Hc. apply andb_false_r.
Qed.

Lemma retrievals_log_cell l k c w :
  l <> k ->
  retrievals l (log (in_cell k, c) w) = retrievals l w.
Proof.
  intros Hne. apply retrievals_log_other.
  unfold event_eqb; simpl.
  destruct (Nat.eqb_spec l k); [contradiction|reflexivity].
Qed.

Lemma retrievals_store l k s w : retrievals l (store k s w) = retrievals l w.
Proof. reflexivity. Qed.

(** ** The store *)

Lemma store_lookup_eq l s w :
  l < length (heap w) -> heap (store l s w) !! l = Some s.
Proof. intros Hl. simpl. by apply list_lookup_insert_eq. Qed.

Lemma store_lookup_ne l k s w :
  l <> k -> heap (store l s w) !! k = heap w !! k.
Proof. intros Hlk. simpl. by apply list_lookup_insert_ne. Qed.

Lemma allocated l w s : heap w !! l = Some s -> l < length (heap w).
Proof. intros H. by eapply lookup_lt_Some. Qed.

(** ** The three branches of the visitor *)

Lemma visit_get_ready n l w r :
  heap w !! l = Some (Ready r) -> visit_get (S n) l w = Returns l w.
Proof. intros H. simpl. rewrite H. reflexivity. Qed.

Lemma visit_get_throws n l w f e c :
  heap w !! l = Some (Pending f) ->
  fut_get f = (inl e, c) ->
  visit_get (S n) l w
  = Throws e (store l (Pending c) (log (in_cell l, call_get) w)).
Proof. intros H Hg. simpl. rewrite H, Hg. reflexivity. Qed.

Lemma visit_get_caches n l w f r c :
  heap w !! l = Some (Pending f) ->
  fut_get f = (inr r, c) ->
  visit_get (S (S n)) l w
  = Returns l (store l (Ready r)
                 (store l (Pending c) (log (in_cell l, call_get) w))).
Proof.
  intros H Hg. pose proof (allocated _ _ H) as Hl.
  cbn [visit_get]. rewrite H, Hg.
  rewrite store_lookup_eq; [reflexivity|].
  simpl. rewrite length_insert. exact Hl.
Qed.

(** The visitor never needs more than two visits. *)
Lemma visit_get_enough n l w :
  visit_get (S (S n)) l w = visit_get 2 l w /\ visit_get 2 l w <> OutOfFuel.
Proof.
  destruct (heap w !! l) as [[f|r]|] eqn:H.
  - destruct (fut_get f) as [[e|r] c] eqn:Hg.
    + rewrite !(visit_get_throws _ _ _ H Hg). split; [reflexivity|discriminate].
    + rewrite (visit_get_caches n _ _ H Hg), (visit_get_caches 0 _ _ H Hg).
      split; [reflexivity|discriminate].
  - rewrite !(visit_get_ready _ _ _ H). split; [reflexivity|discriminate].
  - simpl. rewrite H. split; [reflexivity|discriminate].
Qed.

Lemma get_ready a w l r :
  variant_ptr_ a = Some l ->
  heap w !! l = Some (Ready r) ->
  get a w = Returns l w.
Proof.
  intros Ha H. unfold get, get_fuel. rewrite Ha.
  by eapply visit_get_ready.
Qed.

Lemma get_caches a w l f r c :
  variant_ptr_ a = Some l ->
  heap w !! l = Some (Pending f) ->
  fut_get f = (inr r, c) ->
  get a w = Returns l (store l (Ready r)
              (store l (Pending c) (log (in_cell l, call_get) w))).
Proof.
  intros Ha H Hg. unfold get, get_fuel. rewrite Ha.
  by eapply visit_get_caches.
Qed.

Lemma get_throws a w l f e c :
  variant_ptr_ a = Some l ->
  heap w !! l = Some (Pending f) ->
  fut_get f = (inl e, c) ->
  get a w = Throws e (store l (Pending c) (log (in_cell l, call_get) w)).
Proof.
  intros Ha H Hg. unfold get, get_fuel. rewrite Ha.
  by eapply visit_get_throws.
Qed.

(** ** Construction and validity *)

(** C4: construction from a valid future moves it into a variant allocated
    at a fresh address, holding [Pending] of the moved future; the new
    adaptor points to it and [valid()] is true.  Construction from a
    future that is not valid returns normally, with an adaptor that points
    to nothing and whose [valid()] is false; the store of variants is as
    before. *)
Theorem construct_valid_iff_source_valid (unique_future : Future) w :
  exists a remains w',
    construct unique_future w = Returns (a, remains) w' /\
    valid a = fut_is_valid unique_future /\
    if fut_is_valid unique_future then
      exists l,
        variant_ptr_ a = Some l /\
        remains = snd (fut_move unique_future) /\
        heap w !! l = None /\
        heap w' = heap w ++ [Pending (fst (fut_move unique_future))] /\
        heap w' !! l = Some (Pending (fst (fut_move unique_future))) /\
        shape_at w' l = Some PendingShape
    else
      variant_ptr_ a = None /\ remains = unique_future /\ heap w' = heap w.
Proof.
  unfold construct.
  destruct (fut_is_valid unique_future) eqn:Hv.
  - destruct (fut_move unique_future) as [inner remains] eqn:Hm.
    eexists _, _, _. split; [reflexivity|]. split; [reflexivity|].
    exists (length (heap w)). simpl.
    assert (Hnew : (heap w ++ [Pending inner]) !! length (heap w)
                   = Some (Pending inner) :> option (state_type _ _)).
    { rewrite lookup_app_r by lia. by rewrite Nat.sub_diag. }
    split; [reflexivity|]. split; [reflexivity|].
    split; [apply lookup_ge_None_2; lia|].
    split; [reflexivity|]. split; [exact Hnew|].
    unfold shape_at; simpl. by rewrite Hnew.
  - eexists _, _, _. split; [reflexivity|]. split; [reflexivity|].
    repeat split.
Qed.

(** C10: the constructor moves from its argument only when the
    argument's validity query answers true.  A future that is not valid
    is handed back as it was: the only call made on it is the validity
    query. *)
Theorem construct_leaves_invalid_source (unique_future : Future) w :
  fut_is_valid unique_future = false ->
  exists a w',
    construct unique_future w = Returns (a, unique_future) w' /\
    calls w' = calls w ++ [(in_source, call_is_valid)] /\
    occurrences (in_source, call_move) (calls w')
    = occurrences (in_source, call_move) (calls w) /\
    heap w' = heap w.
Proof.
  intros Hv. unfold construct. rewrite Hv.
  eexists _, _. split; [reflexivity|]. simpl.
  split; [reflexivity|]. split; [|reflexivity].
  rewrite occurrences_app. unfold occurrences at 2; simpl. lia.
Qed.

(** ** Readiness and waiting *)

(** C5: on a valid adaptor [is_ready()] returns true when the variant
    holds a result and the answer of the future's own [is_ready] when it
    holds the future; the variants and the count of retrievals are as
    before. *)
Theorem is_ready_observes a w l s :
  variant_ptr_ a = Some l ->
  heap w !! l = Some s ->
  exists w',
    is_ready a w
    = Returns (match s with
               | Ready _ => true
               | Pending underlying_future => fut_is_ready underlying_future
               end) w' /\
    heap w' = heap w /\
    (forall k, shape_at w' k = shape_at w k) /\
    (forall k, retrievals k w' = retrievals k w).
Proof.
  intros Ha Hs. unfold is_ready. rewrite Ha, Hs.
  destruct s as [f|r]; simpl; eexists; (split; [reflexivity|]).
  - split; [reflexivity|]. split; [reflexivity|].
    intros k. by apply retrievals_log_call.
  - repeat split.
Qed.

(** C6: on a valid adaptor whose variant holds a result, [wait()]
    returns at once and the store and the trace are as before: no call
    reaches a future.  When the variant holds the future, [wait()] makes
    one call, the future's [wait], and the variant holds that same future
    afterwards.  In both cases every variant holds the alternative it
    held before, no retrieval is made, and if the future's [wait] does
    not alter the future object the store of variants is as before. *)
Theorem wait_keeps_shape a w l s :
  variant_ptr_ a = Some l ->
  heap w !! l = Some s ->
  exists w',
    wait a w = Returns tt w' /\
    (forall k, shape_at w' k = shape_at w k) /\
    (forall k, retrievals k w' = retrievals k w) /\
    (forall k, k <> l -> heap w' !! k = heap w !! k) /\
    match s with
    | Ready _ => w' = w
    | Pending underlying_future =>
        heap w' !! l = Some (Pending (fut_wait underlying_future)) /\
        calls w' = calls w ++ [(in_cell l, call_wait)] /\
        (fut_wait underlying_future = underlying_future -> heap w' = heap w)
    end.
Proof.
  intros Ha Hs. unfold wait. rewrite Ha, Hs.
  pose proof (allocated _ _ Hs) as Hl.
  destruct s as [f|r]; simpl; eexists; (split; [reflexivity|]).
  - split; [|split; [|split; [|split; [|split]]]].
    + intros k. unfold shape_at; simpl.
      destruct (decide (l = k)) as [<-|Hne].
      * rewrite list_lookup_insert_eq by exact Hl. by rewrite Hs.
      * by rewrite list_lookup_insert_ne.
    + intros k. rewrite retrievals_store. by apply retrievals_log_call.
    + intros k Hne. by apply list_lookup_insert_ne.
    + by apply list_lookup_insert_eq.
    + reflexivity.
    + intros ->. by apply list_insert_id.
  - repeat split.
Qed.

(** ** Misuse and failure *)

(** C3, as the code has it: an adaptor that points to nothing answers
    false to [valid()]; [is_ready()], [wait()] and [get()] make no
    validity check and dereference the empty pointer, which is undefined
    behaviour.  No error is signalled to the caller. *)
Theorem invalid_adaptor_is_dereferenced a w :
  valid a = false ->
  is_ready a w = Undefined /\
  wait a w = Undefined /\
  get a w = Undefined /\
  (forall e w', is_ready a w <> Throws e w') /\
  (forall e w', wait a w <> Throws e w') /\
  (forall e w', get a w <> Throws e w').
Proof.
  unfold valid, is_ready, wait, get, get_fuel.
  destruct (variant_ptr_ a); [discriminate|]. intros _.
  repeat split; discriminate.
Qed.

(** C8 (the visitor; [get()] itself, line 124, cannot be instantiated):
    when the future's consuming retrieval throws during a visit of a
    variant that holds the future, [get_visitor] lets that same exception
    escape.  The retrieval was called once and not again; the variant
    still holds the (consumed) future, not a result, and the other
    variants are as before. *)
Theorem get_visitor_propagates_failure l w f e c :
  heap w !! l = Some (Pending f) ->
  fut_get f = (inl e, c) ->
  exists w',
    (forall n, visit_get (S n) l w = Throws e w') /\
    calls w' = calls w ++ [(in_cell l, call_get)] /\
    retrievals l w' = S (retrievals l w) /\
    heap w' !! l = Some (Pending c) /\
    shape_at w' l = Some PendingShape /\
    deref w' l = None /\
    (forall k, k <> l -> heap w' !! k = heap w !! k).
Proof.
  intros Hs Hg. pose proof (allocated _ _ Hs) as Hl.
  eexists. split; [intros n; by eapply visit_get_throws|].
  assert (Hc : heap (store l (Pending c) (log (in_cell l, call_get) w)) !! l
               = Some (Pending c)).
  { by apply store_lookup_eq. }
  split; [reflexivity|]. split; [|split; [|split; [|split]]].
  - rewrite retrievals_store. apply retrievals_log_get.
  - exact Hc.
  - unfold shape_at. by rewrite Hc.
  - unfold deref. by rewrite Hc.
  - intros k Hne. rewrite store_lookup_ne by congruence. reflexivity.
Qed.

(** ** Steps of a run *)

Lemma shape_at_ready w l r :
  heap w !! l = Some (Ready r) -> shape_at w l = Some ReadyShape.
Proof. intros H. unfold shape_at. by rewrite H. Qed.

Lemma shape_at_pending w l f :
  heap w !! l = Some (Pending f) -> shape_at w l = Some PendingShape.
Proof. intros H. unfold shape_at. by rewrite H. Qed.

Lemma shape_at_pending_inv w l :
  shape_at w l = Some PendingShape -> exists f, heap w !! l = Some (Pending f).
Proof.
  unfold shape_at. destruct (heap w !! l) as [[f|r]|]; simpl; try discriminate.
  intros _. by exists f.
Qed.

(** A cell that holds a result is out of reach of every operation: it
    keeps the result, and no retrieval is made on it. *)
Lemma exec_keeps_ready o w w' l r :
  exec o w = Some w' ->
  heap w !! l = Some (Ready r) ->
  heap w' !! l = Some (Ready r) /\ retrievals l w' = retrievals l w.
Proof.
  intros He Hr. pose proof (allocated _ _ Hr) as Hl.
  destruct o as [f|a|a|a|a|a]; simpl in He.
  - unfold construct in He. destruct (fut_is_valid f).
    + destruct (fut_move f) as [inner remains]. injection He as <-. simpl.
      split; [by rewrite lookup_app_l|].
      change (retrievals l (log (in_source, call_move)
                (log (in_source, call_is_valid) w)) = retrievals l w).
      by rewrite !retrievals_log_call.
    + injection He as <-. split; [exact Hr|]. by rewrite retrievals_log_call.
  - injection He as <-. by split.
  - injection He as <-. by split.
  - unfold is_ready in He. destruct (variant_ptr_ a) as [k|]; [|discriminate].
    destruct (heap w !! k) as [[f|r']|]; simpl in He; try discriminate;
      injection He as <-; split; try done.
    by rewrite retrievals_log_call.
  - unfold wait in He. destruct (variant_ptr_ a) as [k|]; [|discriminate].
    destruct (heap w !! k) as [[f|r']|] eqn:Hk; simpl in He; try discriminate;
      injection He as <-; [|by split].
    assert (k <> l) by congruence.
    split; [by rewrite store_lookup_ne|].
    rewrite retrievals_store. by rewrite retrievals_log_call.
  - destruct (variant_ptr_ a) as [k|] eqn:Ha;
      [|unfold get, get_fuel in He; rewrite Ha in He; discriminate].
    destruct (heap w !! k) as [[f|r']|] eqn:Hk.
    + assert (k <> l) by congruence.
      destruct (fut_get f) as [[e|r'] c] eqn:Hg.
      * rewrite (get_throws _ _ Ha Hk Hg) in He. injection He as <-.
        split; [by rewrite store_lookup_ne|].
        rewrite retrievals_store. by apply retrievals_log_cell.
      * rewrite (get_caches _ _ Ha Hk Hg) in He. injection He as <-.
        split; [by rewrite !store_lookup_ne|].
        rewrite !retrievals_store. by apply retrievals_log_cell.
    + rewrite (get_ready _ _ Ha Hk) in He. injection He as <-. by split.
    + unfold get, get_fuel in He. rewrite Ha in He. simpl in He.
      rewrite Hk in He. discriminate.
Qed.

(** A cell that holds the future keeps holding a future, unless the
    operation is a [get()] through an adaptor pointing to that cell, and
    that [get()] returns. *)
Lemma exec_from_pending o w w' l :
  exec o w = Some w' ->
  shape_at w l = Some PendingShape ->
  shape_at w' l = Some PendingShape \/
  (shape_at w' l = Some ReadyShape /\
   exists a, o = op_get a /\ variant_ptr_ a = Some l /\
             get a w = Returns l w').
Proof.
  intros He Hp. destruct (shape_at_pending_inv _ _ Hp) as [g Hg].
  pose proof (allocated _ _ Hg) as Hl.
  destruct o as [f|a|a|a|a|a]; simpl in He.
  - left. unfold construct in He. destruct (fut_is_valid f).
    + destruct (fut_move f) as [inner remains]. injection He as <-.
      unfold shape_at; simpl. rewrite lookup_app_l by exact Hl. exact Hp.
    + injection He as <-. exact Hp.
  - left. by injection He as <-.
  - left. by injection He as <-.
  - left. unfold is_ready in He. destruct (variant_ptr_ a) as [k|]; [|discriminate].
    destruct (heap w !! k) as [[f|r']|]; simpl in He; try discriminate;
      injection He as <-; exact Hp.
  - left. unfold wait in He. destruct (variant_ptr_ a) as [k|]; [|discriminate].
    destruct (heap w !! k) as [[f|r']|] eqn:Hk; simpl in He; try discriminate;
      injection He as <-; [|exact Hp].
    destruct (decide (k = l)) as [->|Hne].
    + eapply shape_at_pending. by apply store_lookup_eq.
    + unfold shape_at. by rewrite store_lookup_ne.
  - destruct (variant_ptr_ a) as [k|] eqn:Ha;
      [|unfold get, get_fuel in He; rewrite Ha in He; discriminate].
    destruct (heap w !! k) as [[f|r']|] eqn:Hk.
    + pose proof (allocated _ _ Hk) as Hlk.
      destruct (fut_get f) as [[e|r'] c] eqn:Hf.
      * left. rewrite (get_throws _ _ Ha Hk Hf) in He. injection He as <-.
        destruct (decide (k = l)) as [->|Hne].
        -- eapply shape_at_pending. by apply store_lookup_eq.
        -- unfold shape_at. by rewrite store_lookup_ne.
      * pose proof (get_caches _ _ Ha Hk Hf) as Hget.
        rewrite Hget in He. injection He as <-.
        destruct (decide (k = l)) as [->|Hne].
        -- right. split.
           ++ eapply shape_at_ready. apply store_lookup_eq.
              simpl. by rewrite length_insert.
           ++ by exists a.
        -- left. unfold shape_at. by rewrite !store_lookup_ne.
    + left. rewrite (get_ready _ _ Ha Hk) in He. by injection He as <-.
    + unfold get, get_fuel in He. rewrite Ha in He. simpl in He.
      rewrite Hk in He. discriminate.
Qed.

Lemma run_keeps_ready ops w w' l r :
  run ops w = Some w' ->
  heap w !! l = Some (Ready r) ->
  heap w' !! l = Some (Ready r) /\ retrievals l w' = retrievals l w.
Proof.
  revert w. induction ops as [|o ops IH]; intros w Hrun Hr; simpl in Hrun.
  - injection Hrun as <-. by split.
  - destruct (exec o w) as [w1|] eqn:He; [|discriminate].
    destruct (exec_keeps_ready _ _ _ He Hr) as [Hr1 Hn1].
    destruct (IH _ Hrun Hr1) as [Hr' Hn']. split; [exact Hr'|congruence].
Qed.

Lemma history_head ops w ws :
  history ops w = Some ws -> exists rest, ws = w :: rest.
Proof.
  destruct ops as [|o ops]; simpl.
  - intros [= <-]. by eexists.
  - destruct (exec o w) as [w1|]; [|discriminate].
    destruct (history ops w1); [|discriminate]. intros [= <-]. by eexists.
Qed.

Lemma history_step ops w ws i o u v :
  history ops w = Some ws ->
  ops !! i = Some o -> ws !! i = Some u -> ws !! S i = Some v ->
  exec o u = Some v.
Proof.
  revert w ws i. induction ops as [|o' ops IH]; intros w ws i Hh Ho Hu Hv.
  - discriminate.
  - simpl in Hh. destruct (exec o' w) as [w1|] eqn:He; [|discriminate].
    destruct (history ops w1) as [ws1|] eqn:Hh1; [|discriminate].
    injection Hh as <-.
    destruct (history_head _ _ Hh1) as [rest ->].
    destruct i as [|i]; simpl in *.
    + congruence.
    + by eapply IH.
Qed.

Lemma transitions_cons l u v (rest : list world) :
  transitions l (u :: v :: rest)
  = (if changes_shape l u v then 1 else 0) + transitions l (v :: rest).
Proof. reflexivity. Qed.

Lemma transitions_bound ops w ws l :
  history ops w = Some ws ->
  transitions l ws <= 1 /\
  (shape_at w l = Some ReadyShape -> transitions l ws = 0).
Proof.
  revert w ws. induction ops as [|o ops IH]; intros w ws Hh; simpl in Hh.
  - injection Hh as <-. simpl. split; [lia|reflexivity].
  - destruct (exec o w) as [w1|] eqn:He; [|discriminate].
    destruct (history ops w1) as [ws1|] eqn:Hh1; [|discriminate].
    injection Hh as <-.
    destruct (IH _ _ Hh1) as [Hle Hz].
    destruct (history_head _ _ Hh1) as [rest ->].
    rewrite transitions_cons. unfold changes_shape.
    destruct (shape_at w l) as [[]|] eqn:Hs.
    + destruct (exec_from_pending _ _ l He Hs) as [Hp|[Hr _]].
      * rewrite Hp. cbn [negb shape_eqb Nat.add]. split; [lia|discriminate].
      * rewrite Hr. cbn [negb shape_eqb]. rewrite (Hz Hr).
        split; [lia|discriminate].
    + unfold shape_at in Hs.
      destruct (heap w !! l) as [[f|r]|] eqn:Hw; try discriminate.
      destruct (exec_keeps_ready _ _ _ He Hw) as [Hr _].
      pose proof (shape_at_ready _ _ Hr) as Hr1.
      rewrite Hr1. cbn [negb shape_eqb]. rewrite (Hz Hr1).
      split; [lia|reflexivity].
    + cbn [Nat.add]. split; [lia|discriminate].
Qed.

(** More budget than two visits changes nothing, and two never run out. *)
Lemma get_fuel_enough n a w :
  get_fuel (S (S n)) a w = get a w /\ get a w <> OutOfFuel.
Proof.
  unfold get, get_fuel. destruct (variant_ptr_ a) as [l|].
  - apply visit_get_enough.
  - split; [reflexivity|discriminate].
Qed.

Lemma copy_of_ptr a b : copy_of a b -> variant_ptr_ b = variant_ptr_ a.
Proof. induction 1 as [|b _ IH]; [reflexivity|exact IH]. Qed.

(** ** Memoization *)

Lemma first_visit_caches l w f r c :
  heap w !! l = Some (Pending f) ->
  fut_get f = (inr r, c) ->
  exists w1,
    (forall n, visit_get (S (S n)) l w = Returns l w1) /\
    calls w1 = calls w ++ [(in_cell l, call_get)] /\
    retrievals l w1 = S (retrievals l w) /\
    heap w1 !! l = Some (Ready r).
Proof.
  intros Hs Hg. pose proof (allocated _ _ Hs) as Hl.
  eexists. split; [intros n; by eapply visit_get_caches|].
  split; [reflexivity|]. split.
  - rewrite !retrievals_store. apply retrievals_log_get.
  - apply store_lookup_eq. simpl. by rewrite length_insert.
Qed.

(** C1 (the visitor; [get()] itself, line 124, cannot be instantiated):
    when [get_visitor] visits a variant that holds the future, and the
    future's retrieval produces a value, the visit makes exactly one call,
    the consuming retrieval, puts the produced value into the variant in
    place of the future and returns a reference to it.  After any further
    run of operations, a visit of the same variant returns the same
    reference, to the same value, leaves the store as it is, and the count
    of retrievals on that variant has stayed at one more than before the
    first visit. *)
Theorem get_visitor_retrieves_once_then_caches l w f r c :
  heap w !! l = Some (Pending f) ->
  fut_get f = (inr r, c) ->
  exists w1,
    (forall n, visit_get (S (S n)) l w = Returns l w1) /\
    calls w1 = calls w ++ [(in_cell l, call_get)] /\
    retrievals l w1 = S (retrievals l w) /\
    heap w1 !! l = Some (Ready r) /\
    deref w1 l = Some r /\
    forall ops w2,
      run ops w1 = Some w2 ->
      (forall n, visit_get (S n) l w2 = Returns l w2) /\
      deref w2 l = Some r /\
      retrievals l w2 = S (retrievals l w).
Proof.
  intros Hs Hg.
  destruct (@first_visit_caches l w f r c Hs Hg) as (w1 & Hv & Hc & Hn & Hr).
  exists w1. split; [exact Hv|]. split; [exact Hc|]. split; [exact Hn|].
  split; [exact Hr|]. split; [unfold deref; by rewrite Hr|].
  intros ops w2 Hrun.
  destruct (@run_keeps_ready _ _ _ _ _ Hrun Hr) as [Hr2 Hn2].
  split; [intros n; by eapply visit_get_ready|].
  split; [unfold deref; by rewrite Hr2|congruence].
Qed.

(** C7 (the visitor; [get()] itself, line 124, cannot be instantiated):
    all copies of an adaptor point to the one variant the adaptor points
    to.  When that variant holds the future and [get_visitor] visits it
    once, a later visit of the variant that any other copy points to,
    after any run of operations, returns the reference the first visit
    returned, to the value the first visit cached, and makes no retrieval
    of its own. *)
Theorem copies_point_to_one_cached_state a b1 b2 w l f r c :
  copy_of a b1 ->
  copy_of a b2 ->
  variant_ptr_ a = Some l ->
  heap w !! l = Some (Pending f) ->
  fut_get f = (inr r, c) ->
  variant_ptr_ b1 = Some l /\
  variant_ptr_ b2 = Some l /\
  exists w1,
    (forall n, visit_get (S (S n)) l w = Returns l w1) /\
    deref w1 l = Some r /\
    retrievals l w1 = S (retrievals l w) /\
    forall ops w2 l2,
      run ops w1 = Some w2 ->
      variant_ptr_ b2 = Some l2 ->
      (forall n, visit_get (S n) l2 w2 = Returns l w2) /\
      deref w2 l2 = Some r /\
      retrievals l2 w2 = retrievals l w1.
Proof.
  intros H1 H2 Ha Hs Hg.
  assert (Hb1 : variant_ptr_ b1 = Some l)
    by (rewrite (copy_of_ptr H1); exact Ha).
  assert (Hb2 : variant_ptr_ b2 = Some l)
    by (rewrite (copy_of_ptr H2); exact Ha).
  split; [exact Hb1|]. split; [exact Hb2|].
  destruct (@first_visit_caches l w f r c Hs Hg) as (w1 & Hv & _ & Hn & Hr).
  exists w1. split; [exact Hv|].
  split; [unfold deref; by rewrite Hr|]. split; [exact Hn|].
  intros ops w2 l2 Hrun Hl2.
  assert (l2 = l) as -> by congruence.
  destruct (@run_keeps_ready _ _ _ _ _ Hrun Hr) as [Hr2 Hn2].
  split; [intros n; by eapply visit_get_ready|].
  split; [unfold deref; by rewrite Hr2|exact Hn2].
Qed.

(** ** The state machine of a variant *)

(** C2: along every run of operations, the variant at an address changes
    its alternative at most once.  In every step a variant that holds a
    result keeps that result, and a variant that holds the future either
    still holds a future afterwards or holds a result, and then the step
    is a [get()] that returned, made through an adaptor pointing to that
    variant: no other operation, [is_ready()] and [wait()] included, makes
    the change. *)
Theorem state_changes_once_by_get ops w ws l :
  history ops w = Some ws ->
  transitions l ws <= 1 /\
  forall i o u v,
    ops !! i = Some o -> ws !! i = Some u -> ws !! S i = Some v ->
    (forall r, heap u !! l = Some (Ready r) -> heap v !! l = Some (Ready r)) /\
    (shape_at u l = Some PendingShape ->
     shape_at v l = Some PendingShape \/
     (shape_at v l = Some ReadyShape /\
      exists a, o = op_get a /\ variant_ptr_ a = Some l /\
                get a u = Returns l v)).
Proof.
  intros Hh. split; [by eapply transitions_bound|].
  intros i o u v Ho Hu Hv.
  pose proof (@history_step _ _ _ _ _ _ _ Hh Ho Hu Hv) as He.
  split.
  - intros r Hr. by destruct (exec_keeps_ready _ _ _ He Hr).
  - intros Hp. by eapply exec_from_pending.
Qed.

(** ** Visits from several threads *)

#[local] Abbreviation pc := (@pc result_type exn).
#[local] Abbreviation config := (@config Future result_type exn).

Lemma insert_middle (done : list pc) p q rest :
  <[length done := q]> (done ++ p :: rest) = done ++ q :: rest.
Proof. induction done as [|d done IH]; simpl; [reflexivity|by rewrite IH]. Qed.

Lemma sched_step_middle l (done : list pc) p rest w p' w' :
  thread_step l p w = Some (p', w') ->
  sched_step l (length done) (done ++ p :: rest, w)
  = Some (done ++ p' :: rest, w').
Proof.
  intros Ht. unfold sched_step; cbn [fst snd].
  rewrite list_lookup_middle by reflexivity. rewrite Ht.
  by rewrite insert_middle.
Qed.

Lemma run_schedule_app l s1 s2 (c c1 : config) :
  run_schedule l s1 c = Some c1 ->
  run_schedule l (s1 ++ s2) c = run_schedule l s2 c1.
Proof.
  revert c. induction s1 as [|i s1 IH]; intros c0 H; simpl in *.
  - by injection H as <-.
  - destruct (sched_step l i c0) as [c'|]; [|discriminate]. by apply IH.
Qed.






End Properties.

(** * The adaptor over the instrumented future *)

Module Scenario.

Import Instrumented.

(** The end-to-end scenario: construct from a running computation that
    will yield 42; it is not ready; wait; it is ready; [get()] twice. *)
Definition end_to_end : list op :=
  [op_construct yields_42; op_is_ready handle; op_wait handle;
   op_is_ready handle; op_get handle; op_get handle].

Example construct_yields_42 :
  construct yields_42 nothing = Returns (handle, release yields_42) one_pending.
Proof. reflexivity. Qed.

Example not_ready_before_wait :
  exists w, is_ready handle one_pending = Returns false w.
Proof. eexists. reflexivity. Qed.

Example ready_after_wait :
  exists w1 w2,
    wait handle one_pending = Returns tt w1 /\
    is_ready handle w1 = Returns true w2 /\
    shape_at w2 0 = Some PendingShape.
Proof. eexists _, _. repeat split. Qed.

(** The scenario runs the repaired [get()] of [get_fuel]: as written,
    line 124 lets no [get()] run at all. *)
Example end_to_end_retrieves_once :
  exists w, run end_to_end nothing = Some w /\
            deref w 0 = Some 42 /\ retrievals 0 w = 1.
Proof. eexists. repeat split. Qed.

(** Witness for C2. *)
Lemma state_changes_once_by_get_witness :
  exists ws,
    history end_to_end nothing = Some ws /\
    transitions 0 ws <= 1 /\
    length ws = 7.
Proof.
  eexists. split; [reflexivity|].
  split; [|reflexivity].
  exact (proj1 (@state_changes_once_by_get _ _ _ future_contract
                  end_to_end nothing _ 0 eq_refl)).
Defined.

(** C3 as stated fails: on an adaptor that points to nothing, none of
    [is_ready()], [wait()] and [get()] signals an error. *)
Lemma invalid_handle_is_not_signalled :
  valid no_handle = false /\
  ~ (exists e w', is_ready no_handle nothing = Throws e w') /\
  ~ (exists e w', wait no_handle nothing = Throws e w') /\
  ~ (exists e w', get no_handle nothing = Throws e w').
Proof.
  split; [reflexivity|].
  repeat split; intros (e & w' & H); discriminate H.
Qed.

(** Witness for C3 as amended. *)
Lemma invalid_adaptor_is_dereferenced_witness :
  valid no_handle = false /\
  is_ready no_handle nothing = Undefined /\
  wait no_handle nothing = Undefined /\
  get no_handle nothing = Undefined.
Proof.
  split; [reflexivity|].
  destruct (@invalid_adaptor_is_dereferenced _ _ _ future_contract no_handle nothing eq_refl)
    as (H1 & H2 & H3 & _).
  repeat split; assumption.
Defined.

(** Witness for C5. *)
Lemma is_ready_observes_witness :
  variant_ptr_ handle = Some 0 /\
  heap one_pending !! 0 = Some (Pending yields_42) /\
  exists w', is_ready handle one_pending = Returns false w' /\
             heap w' = heap one_pending.
Proof.
  split; [reflexivity|]. split; [reflexivity|].
  destruct (@is_ready_observes _ _ _ future_contract handle one_pending 0
              (Pending yields_42) eq_refl eq_refl) as (w' & Hr & Hh & _).
  exists w'. split; [exact Hr|exact Hh].
Defined.

(** Witness for C6. *)
Lemma wait_keeps_shape_witness :
  variant_ptr_ handle = Some 0 /\
  heap one_pending !! 0 = Some (Pending yields_42) /\
  exists w', wait handle one_pending = Returns tt w' /\
             shape_at w' 0 = shape_at one_pending 0 /\
             retrievals 0 w' = retrievals 0 one_pending.
Proof.
  split; [reflexivity|]. split; [reflexivity|].
  destruct (@wait_keeps_shape _ _ _ future_contract handle one_pending 0
              (Pending yields_42) eq_refl eq_refl) as (w' & Hr & Hs & Hn & _).
  exists w'. split; [exact Hr|]. split; [apply Hs|apply Hn].
Defined.

(** Witness for C10. *)
Lemma construct_leaves_invalid_source_witness :
  fut_is_valid empty = false /\
  exists a w',
    construct empty nothing = Returns (a, empty) w' /\
    calls w' = [(in_source, call_is_valid)] /\
    heap w' = [].
Proof.
  split; [reflexivity|].
  destruct (@construct_leaves_invalid_source _ _ _ future_contract empty nothing eq_refl)
    as (a & w' & Hc & Hcalls & _ & Hh).
  exists a, w'. split; [exact Hc|]. split; [exact Hcalls|exact Hh].
Defined.

(** Witness for C1. *)
Lemma get_visitor_retrieves_once_then_caches_witness :
  heap one_pending !! 0 = Some (Pending yields_42) /\
  fut_get yields_42 = (inr 42, release yields_42) /\
  exists w1,
    visit_get 2 0 one_pending = Returns 0 w1 /\
    retrievals 0 w1 = 1 /\
    deref w1 0 = Some 42 /\
    visit_get 1 0 w1 = Returns 0 w1.
Proof.
  split; [reflexivity|]. split; [reflexivity|].
  destruct (@get_visitor_retrieves_once_then_caches _ _ _ future_contract 0
              one_pending yields_42 42 (release yields_42) eq_refl eq_refl)
    as (w1 & Hv & _ & Hn & _ & Hd & Hlater).
  exists w1. split; [exact (Hv 0)|]. split; [exact Hn|]. split; [exact Hd|].
  exact (proj1 (Hlater [] w1 eq_refl) 0).
Defined.

(** Witness for C7. *)
Lemma copies_point_to_one_cached_state_witness :
  copy_of handle (copy handle) /\
  copy_of handle (copy (copy handle)) /\
  variant_ptr_ handle = Some 0 /\
  heap one_pending !! 0 = Some (Pending yields_42) /\
  fut_get yields_42 = (inr 42, release yields_42) /\
  variant_ptr_ (copy handle) = variant_ptr_ (copy (copy handle)) /\
  exists w1,
    visit_get 2 0 one_pending = Returns 0 w1 /\
    visit_get 1 0 w1 = Returns 0 w1 /\
    deref w1 0 = Some 42 /\
    retrievals 0 w1 = 1.
Proof.
  assert (H1 : copy_of handle (copy handle))
    by (apply copy_of_copy, copy_of_self).
  assert (H2 : copy_of handle (copy (copy handle)))
    by (apply copy_of_copy, H1).
  split; [exact H1|]. split; [exact H2|].
  split; [reflexivity|]. split; [reflexivity|]. split; [reflexivity|].
  destruct (@copies_point_to_one_cached_state _ _ _ future_contract handle
              (copy handle) (copy (copy handle)) one_pending 0 yields_42 42
              (release yields_42) H1 H2 eq_refl eq_refl eq_refl)
    as (Hb1 & Hb2 & w1 & Hv & Hd & Hn & Hlater).
  split; [by rewrite Hb1, Hb2|].
  exists w1. split; [exact (Hv 0)|].
  split; [exact (proj1 (Hlater [] w1 0 eq_refl Hb2) 0)|].
  split; [exact Hd|exact Hn].
Defined.

(** Witness for C8. *)
Lemma get_visitor_propagates_failure_witness :
  heap one_failing !! 0 = Some (Pending will_fail) /\
  fut_get will_fail = (inl broken_promise, release will_fail) /\
  exists w',
    visit_get 2 0 one_failing = Throws broken_promise w' /\
    retrievals 0 w' = 1 /\
    shape_at w' 0 = Some PendingShape.
Proof.
  split; [reflexivity|]. split; [reflexivity|].
  destruct (@get_visitor_propagates_failure _ _ _ future_contract 0
              one_failing will_fail broken_promise (release will_fail)
              eq_refl eq_refl)
    as (w' & Hv & _ & Hn & _ & Hs & _).
  exists w'. split; [exact (Hv 1)|]. split; [exact Hn|exact Hs].
Defined.



(** Without the condition that the retrieval produces a value the serial
    visits do not stop at one retrieval: each visit of a variant whose
    future failed retrieves again. *)
Example serial_visits_of_a_failing_future :
  exists w',
    run_schedule 0 (serial 0 2) (entering 2 one_failing)
    = Some ([threw broken_promise; threw no_state], w') /\
    retrievals 0 w' = 2.
Proof. eexists. split; reflexivity. Qed.

End Scenario.

(** * Further properties of the member functions and the visitor *)

Section Composition.

Context {Future result_type exn : Type}.
Context {F : UniqueFuture Future result_type exn}.

#[local] Abbreviation world := (world Future result_type).
#[local] Abbreviation pc := (@pc result_type exn).

Implicit Types (w : world) (l k : loc) (a b : shared_future_adaptor).

(** What a visit leaves behind when the variant holds the future: the
    call is logged, the future is consumed, and the variant holds the
    produced value if there is one. *)
Lemma visit_on_pending n l w f :
  heap w !! l = Some (Pending f) ->
  exists w',
    after (visit_get (S (S n)) l w) = Some w' /\
    calls w' = calls w ++ [(in_cell l, call_get)] /\
    heap w' = <[l := match fst (fut_get f) with
                     | inl _ => Pending (snd (fut_get f))
                     | inr r => Ready r
                     end]> (heap w).
Proof.
  intros Hs. destruct (fut_get f) as [[e|r] c] eqn:Hg.
  - rewrite (visit_get_throws _ _ _ Hs Hg). eexists. split; [reflexivity|].
    split; reflexivity.
  - rewrite (visit_get_caches _ _ _ Hs Hg). eexists. split; [reflexivity|].
    split; [reflexivity|]. simpl. by rewrite list_insert_insert_eq.
Qed.

Lemma retrievals_after_call l k c w w' :
  calls w' = calls w ++ [(in_cell l, c)] ->
  k <> l ->
  retrievals k w' = retrievals k w.
Proof.
  intros Hc Hne.
  transitivity (retrievals k (log (in_cell l, c) w)).
  - unfold retrievals, log; simpl. by rewrite Hc.
  - by apply retrievals_log_cell.
Qed.

(** What the constructor does with a valid future. *)
Lemma construct_from_valid (unique_future : Future) w :
  fut_is_valid unique_future = true ->
  construct unique_future w
  = Returns (Adaptor (Some (length (heap w))), snd (fut_move unique_future))
      (World (heap w ++ [Pending (fst (fut_move unique_future))])
             ((calls w ++ [(in_source, call_is_valid)])
              ++ [(in_source, call_move)])).
Proof.
  intros Hv. unfold construct. rewrite Hv.
  by destruct (fut_move unique_future).
Qed.

Lemma lookup_new_variant (h : list (state_type Future result_type)) s :
  (h ++ [s]) !! length h = Some s.
Proof. rewrite lookup_app_r by lia. by rewrite Nat.sub_diag. Qed.

(** X1: a visit by [get_visitor], whether it returns or throws, changes
    no variant but the one it visits, allocates nothing, and calls the
    retrieval of no other variant's future. *)
Theorem get_visitor_touches_only_its_variant n l w w' :
  after (visit_get (S n) l w) = Some w' ->
  length (heap w') = length (heap w) /\
  forall k, k <> l ->
    heap w' !! k = heap w !! k /\ retrievals k w' = retrievals k w.
Proof.
  intros Hafter.
  destruct (heap w !! l) as [[f|r]|] eqn:Hs.
  - destruct (fut_get f) as [[e|r] c] eqn:Hg.
    + rewrite (visit_get_throws _ _ _ Hs Hg) in Hafter. injection Hafter as <-.
      split; [simpl; by rewrite length_insert|].
      intros k Hne. split; [by rewrite store_lookup_ne|].
      rewrite retrievals_store. by apply retrievals_log_cell.
    + destruct n as [|n].
      * simpl in Hafter. rewrite Hs, Hg in Hafter. discriminate.
      * rewrite (visit_get_caches _ _ _ Hs Hg) in Hafter.
        injection Hafter as <-.
        split; [simpl; by rewrite !length_insert|].
        intros k Hne. split; [by rewrite !store_lookup_ne|].
        rewrite !retrievals_store. by apply retrievals_log_cell.
  - rewrite (visit_get_ready _ _ _ Hs) in Hafter. injection Hafter as <-.
    split; [reflexivity|]. by intros k _.
  - simpl in Hafter. rewrite Hs in Hafter. discriminate.
Qed.

(** X2: once a variant holds a result, after any further run of
    operations [is_ready()] through any adaptor pointing to it answers
    true and [wait()] returns, and both leave the store and the trace of
    calls exactly as they were: the wrapped future is asked nothing. *)
Theorem result_answers_without_the_future ops w w2 l r b :
  heap w !! l = Some (Ready r) ->
  run ops w = Some w2 ->
  variant_ptr_ b = Some l ->
  is_ready b w2 = Returns true w2 /\
  wait b w2 = Returns tt w2 /\
  deref w2 l = Some r.
Proof.
  intros Hr Hrun Hb.
  destruct (@run_keeps_ready _ _ _ _ _ _ _ _ _ Hrun Hr) as [Hr2 _].
  unfold is_ready, wait, deref. rewrite Hb, Hr2. repeat split.
Qed.

(** X3: a failed visit is not remembered.  The variant keeps the consumed
    future, and the next visit calls the retrieval again, on that consumed
    future: two retrievals in all, and the second visit's outcome is
    whatever the consumed future's retrieval gives. *)
Theorem failed_visit_retrieves_again n l w f e c :
  heap w !! l = Some (Pending f) ->
  fut_get f = (inl e, c) ->
  exists w1 w2,
    visit_get (S n) l w = Throws e w1 /\
    heap w1 !! l = Some (Pending c) /\
    after (visit_get (S (S n)) l w1) = Some w2 /\
    retrievals l w2 = S (S (retrievals l w)) /\
    (forall e2 c2, fut_get c = (inl e2, c2) ->
                   visit_get (S (S n)) l w1 = Throws e2 w2) /\
    (forall r c2, fut_get c = (inr r, c2) ->
                  visit_get (S (S n)) l w1 = Returns l w2 /\
                  deref w2 l = Some r).
Proof.
  intros Hs Hg. pose proof (allocated _ _ Hs) as Hl.
  set (w1 := store l (Pending c) (log (in_cell l, call_get) w)).
  assert (Hs1 : heap w1 !! l = Some (Pending c)) by by apply store_lookup_eq.
  assert (Hn1 : retrievals l w1 = S (retrievals l w)).
  { unfold w1. rewrite retrievals_store. apply retrievals_log_get. }
  destruct (@visit_on_pending n l w1 c Hs1) as (w2 & Hafter & Hc & Hh).
  exists w1, w2. split; [by eapply visit_get_throws|]. split; [exact Hs1|].
  split; [exact Hafter|]. split; [|split].
  - transitivity (retrievals l (log (in_cell l, call_get) w1)).
    + unfold retrievals, log; simpl. by rewrite Hc.
    + by rewrite retrievals_log_get, Hn1.
  - intros e2 c2 Hg2. rewrite (visit_get_throws _ _ _ Hs1 Hg2) in Hafter |- *.
    by injection Hafter as ->.
  - intros r c2 Hg2. rewrite (visit_get_caches _ _ _ Hs1 Hg2) in Hafter |- *.
    injection Hafter as Hw. split; [by rewrite Hw|].
    unfold deref. rewrite Hh, Hg2. simpl.
    rewrite list_lookup_insert_eq; [reflexivity|].
    by eapply lookup_lt_Some.
Qed.

(** X4: construction followed by a visit.  The caller is left with the
    moved-from remains of its future; the value the visitor caches and
    returns is the one produced by the future that was moved into the
    variant, retrieved once; the variants that existed before the
    construction are as they were. *)
Theorem construct_then_visit (unique_future : Future) w r c :
  fut_is_valid unique_future = true ->
  fut_get (fst (fut_move unique_future)) = (inr r, c) ->
  exists a w1 w2 l,
    construct unique_future w
    = Returns (a, snd (fut_move unique_future)) w1 /\
    variant_ptr_ a = Some l /\
    (forall n, visit_get (S (S n)) l w1 = Returns l w2) /\
    deref w2 l = Some r /\
    retrievals l w2 = S (retrievals l w) /\
    forall k, k < length (heap w) -> heap w2 !! k = heap w !! k.
Proof.
  intros Hv Hg.
  set (inner := fst (fut_move unique_future)) in *.
  set (l := length (heap w)).
  set (w1 := World (heap w ++ [Pending inner])
               ((calls w ++ [(in_source, call_is_valid)])
                ++ [(in_source, call_move)])).
  assert (Hs : heap w1 !! l = Some (Pending inner))
    by apply lookup_new_variant.
  destruct (@visit_on_pending 0 l w1 inner Hs) as (w2 & Hafter & Hcalls & Hheap).
  rewrite (visit_get_caches 0 _ _ Hs Hg) in Hafter. injection Hafter as Hw2.
  rewrite Hg in Hheap. cbn [fst] in Hheap.
  exists (Adaptor (Some l)), w1, w2, l.
  split; [by apply construct_from_valid|]. split; [reflexivity|].
  split; [intros n; rewrite <- Hw2; by eapply visit_get_caches|].
  assert (Hl : l < length (heap w1)) by by eapply lookup_lt_Some.
  split; [|split].
  - unfold deref. rewrite Hheap.
    by rewrite list_lookup_insert_eq by exact Hl.
  - transitivity (retrievals l (log (in_cell l, call_get) w1)).
    + unfold retrievals, log; simpl. by rewrite Hcalls.
    + rewrite retrievals_log_get. f_equal.
      change (retrievals l (log (in_source, call_move)
                (log (in_source, call_is_valid) w)) = retrievals l w).
      by rewrite !retrievals_log_call.
  - intros k Hk. rewrite Hheap.
    rewrite list_lookup_insert_ne by (unfold l; lia).
    by apply lookup_app_l.
Qed.

(** ** Defined behaviour without [get()] *)

Lemma points_below_lookup n a w :
  points_below n a = true ->
  n = length (heap w) ->
  exists l s, variant_ptr_ a = Some l /\ heap w !! l = Some s.
Proof.
  unfold points_below. destruct (variant_ptr_ a) as [l|]; [|discriminate].
  intros Hl ->. apply Nat.ltb_lt in Hl.
  destruct (lookup_lt_is_Some_2 (heap w) l Hl) as [s Hs]. by exists l, s.
Qed.

Lemma step_without_get o ops w :
  usable (length (heap w)) (o :: ops) = true ->
  exists w1,
    exec o w = Some w1 /\
    usable (length (heap w1)) ops = true /\
    length (heap w) <= length (heap w1) /\
    (forall l, l < length (heap w) -> shape_at w1 l = shape_at w l) /\
    (forall l, retrievals l w1 = retrievals l w).
Proof.
  destruct o as [f|a|a|a|a|a]; cbn [usable exec]; intros Hu.
  - unfold construct. destruct (fut_is_valid f).
    + destruct (fut_move f) as [inner remains]. eexists.
      split; [reflexivity|]. simpl. rewrite length_app. simpl.
      split; [by rewrite Nat.add_1_r|]. split; [lia|]. split.
      * intros l Hl. unfold shape_at; simpl. by rewrite lookup_app_l.
      * intros l.
        change (retrievals l (log (in_source, call_move)
                  (log (in_source, call_is_valid) w)) = retrievals l w).
        by rewrite !retrievals_log_call.
    + eexists. split; [reflexivity|]. split; [exact Hu|].
      split; [reflexivity|]. split; [reflexivity|].
      intros l. by apply retrievals_log_call.
  - exists w. repeat split; [assumption|lia].
  - exists w. repeat split; [assumption|lia].
  - apply andb_true_iff in Hu as [Ha Hu].
    destruct (@points_below_lookup _ a w Ha eq_refl) as (l & s & Hp & Hs).
    unfold is_ready. rewrite Hp, Hs.
    destruct s as [f|r]; simpl; eexists; (split; [reflexivity|]);
      (split; [exact Hu|]); (split; [simpl; lia|]);
      (split; [reflexivity|]); intros k;
      [by apply retrievals_log_call|reflexivity].
  - apply andb_true_iff in Hu as [Ha Hu].
    destruct (@points_below_lookup _ a w Ha eq_refl) as (l & s & Hp & Hs).
    pose proof (allocated _ _ Hs) as Hl.
    unfold wait. rewrite Hp, Hs.
    destruct s as [f|r]; simpl; eexists; (split; [reflexivity|]).
    + cbn [heap store log]. rewrite length_insert.
      split; [exact Hu|]. split; [lia|]. split.
      * intros k _. unfold shape_at; simpl.
        destruct (decide (l = k)) as [<-|Hne].
        -- rewrite list_lookup_insert_eq by exact Hl. by rewrite Hs.
        -- by rewrite list_lookup_insert_ne.
      * intros k. rewrite retrievals_store. by apply retrievals_log_call.
    + split; [exact Hu|]. split; [lia|]. split; reflexivity.
  - discriminate.
Qed.

(** X5: a run of constructions, copies, [valid()], [is_ready()] and
    [wait()] in which every adaptor dereferenced points to a variant
    allocated by then, in the store the run starts from or by an earlier
    construction of the run, has no undefined behaviour, whatever the
    wrapped futures answer.  It makes no retrieval, and every variant of
    the starting store holds the alternative it held. *)
Theorem runs_without_get_are_defined ops w :
  usable (length (heap w)) ops = true ->
  exists w',
    run ops w = Some w' /\
    (forall l, l < length (heap w) -> shape_at w' l = shape_at w l) /\
    (forall l, retrievals l w' = retrievals l w).
Proof.
  revert w. induction ops as [|o ops IH]; intros w Hu.
  - exists w. repeat split.
  - destruct (@step_without_get o ops w Hu)
      as (w1 & He & Hu1 & Hle & Hshape & Hn).
    destruct (IH w1 Hu1) as (w' & Hrun & Hshape' & Hn').
    exists w'. cbn [run]. rewrite He. split; [exact Hrun|]. split.
    + intros l Hl. rewrite Hshape' by lia. by apply Hshape.
    + intros l. by rewrite Hn', Hn.
Qed.

(** ** Waiting *)

Lemma occurrences_snoc e tr : occurrences e (tr ++ [e]) = S (occurrences e tr).
Proof.
  rewrite occurrences_app. unfold occurrences at 2. cbn [List.filter].
  rewrite event_eqb_refl. simpl. lia.
Qed.

(** X6: [wait()] may be repeated at will.  After [n] calls on a variant
    that holds the future, the variant holds that future after [n] of its
    own [wait]s, [n] calls of [wait] were made on it and none of the
    retrieval. *)
Theorem repeated_wait_never_consumes n a w l f :
  variant_ptr_ a = Some l ->
  heap w !! l = Some (Pending f) ->
  exists w',
    run (replicate n (op_wait a)) w = Some w' /\
    heap w' !! l = Some (Pending (Nat.iter n fut_wait f)) /\
    retrievals l w' = retrievals l w /\
    occurrences (in_cell l, call_wait) (calls w')
    = n + occurrences (in_cell l, call_wait) (calls w).
Proof.
  intros Ha. revert w f. induction n as [|n IH]; intros w f Hs.
  - exists w. repeat split; assumption.
  - pose proof (allocated _ _ Hs) as Hl.
    cbn [replicate run exec]. unfold wait. rewrite Ha, Hs. cbn [wait_visitor after].
    set (w1 := store l (Pending (fut_wait f)) (log (in_cell l, call_wait) w)).
    assert (Hs1 : heap w1 !! l = Some (Pending (fut_wait f)))
      by by apply store_lookup_eq.
    destruct (IH w1 (fut_wait f) Hs1) as (w' & Hrun & Hs' & Hn & Hwaits).
    exists w'. split; [exact Hrun|]. split; [by rewrite Nat.iter_succ_r|].
    split.
    + rewrite Hn. unfold w1. rewrite retrievals_store.
      by apply retrievals_log_call.
    + rewrite Hwaits.
      change (calls w1) with (calls w ++ [(in_cell l, call_wait)]).
      rewrite occurrences_snoc. lia.
Qed.

(** ** Independent adaptors *)

(** X7: adaptors constructed from two valid futures point to different
    variants, and a visit of the first's variant by [get_visitor], whether
    it returns or throws, leaves the second's variant holding its future,
    with no retrieval made on it. *)
Theorem separate_constructions_do_not_share (f1 f2 : Future) w :
  fut_is_valid f1 = true ->
  fut_is_valid f2 = true ->
  exists a1 a2 s1 s2 w1 w2 l1 l2,
    construct f1 w = Returns (a1, s1) w1 /\
    construct f2 w1 = Returns (a2, s2) w2 /\
    variant_ptr_ a1 = Some l1 /\
    variant_ptr_ a2 = Some l2 /\
    l1 <> l2 /\
    heap w2 !! l2 = Some (Pending (fst (fut_move f2))) /\
    forall n, exists w3,
      after (visit_get (S (S n)) l1 w2) = Some w3 /\
      heap w3 !! l2 = Some (Pending (fst (fut_move f2))) /\
      retrievals l2 w3 = retrievals l2 w2.
Proof.
  intros Hv1 Hv2.
  set (l1 := length (heap w)).
  set (w1 := World (heap w ++ [Pending (fst (fut_move f1))])
               ((calls w ++ [(in_source, call_is_valid)])
                ++ [(in_source, call_move)])).
  set (l2 := length (heap w1)).
  set (w2 := World (heap w1 ++ [Pending (fst (fut_move f2))])
               ((calls w1 ++ [(in_source, call_is_valid)])
                ++ [(in_source, call_move)])).
  assert (Hne : l2 <> l1).
  { unfold l2, l1, w1; simpl. rewrite length_app; simpl. lia. }
  assert (Hs1 : heap w2 !! l1 = Some (Pending (fst (fut_move f1)))).
  { unfold w2; simpl. rewrite lookup_app_l.
    - apply lookup_new_variant.
    - unfold l1; simpl. rewrite length_app; simpl. lia. }
  assert (Hs2 : heap w2 !! l2 = Some (Pending (fst (fut_move f2))))
    by apply lookup_new_variant.
  exists (Adaptor (Some l1)), (Adaptor (Some l2)),
         (snd (fut_move f1)), (snd (fut_move f2)), w1, w2, l1, l2.
  split; [by apply construct_from_valid|].
  split; [by apply (construct_from_valid f2 w1)|].
  split; [reflexivity|]. split; [reflexivity|].
  split; [congruence|]. split; [exact Hs2|].
  intros n.
  destruct (@visit_on_pending n l1 w2 _ Hs1) as (w3 & Hafter & Hcalls & Hheap).
  exists w3. split; [exact Hafter|]. split.
  - rewrite Hheap. by rewrite list_lookup_insert_ne by congruence.
  - by eapply retrievals_after_call.
Qed.

(** ** Overlapping visits *)

Lemma all_dispatch l w f m :
  heap w !! l = Some (Pending f) ->
  forall done : list pc,
    run_schedule l (seq (length done) m) (done ++ replicate m at_visit, w)
    = Some (done ++ replicate m at_retrieve, w).
Proof.
  intros Hs. induction m as [|m IH]; intros done.
  - reflexivity.
  - cbn [seq replicate run_schedule].
    erewrite sched_step_middle; [|simpl; rewrite Hs; reflexivity].
    specialize (IH (done ++ [at_retrieve])).
    rewrite length_app, Nat.add_1_r, <- !app_assoc in IH. exact IH.
Qed.

Lemma all_retrieve l m :
  forall (done : list pc) w f,
    heap w !! l = Some (Pending f) ->
    exists ts w' f',
      run_schedule l (seq (length done) m) (done ++ replicate m at_retrieve, w)
      = Some (ts, w') /\
      heap w' !! l = Some (Pending f') /\
      retrievals l w' = m + retrievals l w /\
      length ts = length done + m.
Proof.
  induction m as [|m IH]; intros done w f Hs.
  - exists (done ++ []), w, f. rewrite length_app. repeat split; assumption.
  - pose proof (allocated _ _ Hs) as Hl.
    set (w1 := store l (Pending (snd (fut_get f)))
                 (log (in_cell l, call_get) w)).
    assert (Hs1 : heap w1 !! l = Some (Pending (snd (fut_get f))))
      by by apply store_lookup_eq.
    assert (Hn1 : retrievals l w1 = S (retrievals l w)).
    { unfold w1. rewrite retrievals_store. apply retrievals_log_get. }
    assert (Hstep : exists p, thread_step l at_retrieve w = Some (p, w1)).
    { simpl. rewrite Hs. unfold w1.
      destruct (fut_get f) as [[e|r] c]; eexists; reflexivity. }
    destruct Hstep as [p Hstep].
    destruct (IH (done ++ [p]) w1 _ Hs1) as (ts & w' & f' & Hrun & Hs' & Hn & Hlen).
    exists ts, w', f'.
    cbn [seq replicate run_schedule].
    rewrite (@sched_step_middle _ _ _ _ l done at_retrieve _ w p w1 Hstep).
    rewrite length_app, Nat.add_1_r, <- !app_assoc in Hrun.
    split; [exact Hrun|]. split; [exact Hs'|].
    split; [lia|]. rewrite length_app in Hlen. simpl in Hlen. lia.
Qed.

(** X8: without synchronization the number of retrievals is not bounded
    by one.  When [n] threads visit a variant holding the future with
    [get_visitor] and each reaches the call of the retrieval before any of
    them has assigned a result, the retrieval is called [n] times; the
    variant still holds a future at that point. *)
Theorem overlapping_visits_retrieve_each n w l f :
  heap w !! l = Some (Pending f) ->
  exists ts w',
    run_schedule l (seq 0 n ++ seq 0 n) (entering n w) = Some (ts, w') /\
    retrievals l w' = n + retrievals l w /\
    shape_at w' l = Some PendingShape /\
    length ts = n.
Proof.
  intros Hs. unfold entering.
  change (replicate n at_visit) with (([] : list pc) ++ replicate n at_visit).
  rewrite (@run_schedule_app _ _ _ _ l (seq 0 n) (seq 0 n) _ _
             (@all_dispatch l w f n Hs [])).
  destruct (@all_retrieve l n [] w f Hs) as (ts & w' & f' & Hrun & Hs' & Hn & Hlen).
  exists ts, w'. split; [exact Hrun|]. split; [exact Hn|].
  split; [by eapply shape_at_pending|exact Hlen].
Qed.

End Composition.

(** * The further properties over the instrumented future *)

Module Usage.

Import Instrumented.

(** Witness for X1: two variants, a visit of the first. *)
Lemma get_visitor_touches_only_its_variant_witness :
  exists w',
    after (visit_get 2 0 (World [Pending yields_42; Pending will_fail] []))
    = Some w' /\
    heap w' !! 1 = Some (Pending will_fail) /\
    retrievals 1 w' = 0.
Proof.
  eexists. split; [reflexivity|].
  destruct (@get_visitor_touches_only_its_variant _ _ _ future_contract 1 0
              (World [Pending yields_42; Pending will_fail] []) _
              eq_refl) as [_ Hframe].
  destruct (Hframe 1 ltac:(discriminate)) as [Hh Hn].
  split; [exact Hh|exact Hn].
Defined.

(** Witness for X2: a variant holding 42, after a run that constructs
    another adaptor. *)
Lemma result_answers_without_the_future_witness :
  heap (World [Ready 42] [] : world future nat) !! 0 = Some (Ready 42) /\
  variant_ptr_ (copy handle) = Some 0 /\
  exists w2,
    run [op_construct will_fail; op_wait (Adaptor (Some 1))]
        (World [Ready 42] [] : world future nat) = Some w2 /\
    is_ready (copy handle) w2 = Returns true w2 /\
    wait (copy handle) w2 = Returns tt w2.
Proof.
  split; [reflexivity|]. split; [reflexivity|].
  eexists. split; [reflexivity|].
  destruct (@result_answers_without_the_future _ _ _ future_contract
              [op_construct will_fail; op_wait (Adaptor (Some 1))]
              (World [Ready 42] [] : world future nat) _ 0 42 (copy handle)
              eq_refl eq_refl eq_refl) as (Hr & Hw & _).
  split; [exact Hr|exact Hw].
Defined.

(** Witness for X3: the second visit meets the released handle. *)
Lemma failed_visit_retrieves_again_witness :
  heap one_failing !! 0 = Some (Pending will_fail) /\
  fut_get will_fail = (inl broken_promise, release will_fail) /\
  exists w1 w2,
    visit_get 2 0 one_failing = Throws broken_promise w1 /\
    visit_get 2 0 w1 = Throws no_state w2 /\
    retrievals 0 w2 = 2.
Proof.
  split; [reflexivity|]. split; [reflexivity|].
  destruct (@failed_visit_retrieves_again _ _ _ future_contract 0 0
              one_failing will_fail broken_promise (release will_fail)
              eq_refl eq_refl)
    as (w1 & w2 & Hv & _ & _ & Hn & Hthrow & _).
  exists w1, w2. split; [exact Hv|].
  split; [exact (Hthrow no_state (release will_fail) eq_refl)|exact Hn].
Defined.

(** Witness for X4. *)
Lemma construct_then_visit_witness :
  fut_is_valid yields_42 = true /\
  fut_get (fst (fut_move yields_42)) = (inr 42, release yields_42) /\
  exists a w1 w2 l,
    construct yields_42 nothing = Returns (a, release yields_42) w1 /\
    variant_ptr_ a = Some l /\
    visit_get 2 l w1 = Returns l w2 /\
    deref w2 l = Some 42 /\
    retrievals l w2 = 1.
Proof.
  split; [reflexivity|]. split; [reflexivity|].
  destruct (@construct_then_visit _ _ _ future_contract yields_42 nothing 42
              (release yields_42) eq_refl eq_refl)
    as (a & w1 & w2 & l & Hc & Ha & Hv & Hd & Hn & _).
  exists a, w1, w2, l. split; [exact Hc|]. split; [exact Ha|].
  split; [exact (Hv 0)|]. split; [exact Hd|exact Hn].
Defined.

(** Witness for X5: the adaptor used is constructed within the run. *)
Lemma runs_without_get_are_defined_witness :
  usable (length (heap nothing))
    [op_construct yields_42; op_is_ready handle; op_wait handle;
     op_is_ready (copy handle); op_valid no_handle; op_construct empty]
  = true /\
  exists w',
    run [op_construct yields_42; op_is_ready handle; op_wait handle;
         op_is_ready (copy handle); op_valid no_handle; op_construct empty]
        nothing = Some w' /\
    retrievals 0 w' = 0.
Proof.
  split; [reflexivity|].
  destruct (@runs_without_get_are_defined _ _ _ future_contract
              [op_construct yields_42; op_is_ready handle; op_wait handle;
               op_is_ready (copy handle); op_valid no_handle;
               op_construct empty] nothing eq_refl)
    as (w' & Hrun & _ & Hn).
  exists w'. split; [exact Hrun|exact (Hn 0)].
Defined.

(** Witness for X6. *)
Lemma repeated_wait_never_consumes_witness :
  variant_ptr_ handle = Some 0 /\
  heap one_pending !! 0 = Some (Pending yields_42) /\
  exists w',
    run (replicate 3 (op_wait handle)) one_pending = Some w' /\
    heap w' !! 0 = Some (Pending (Fut true true (inr 42))) /\
    retrievals 0 w' = 0.
Proof.
  split; [reflexivity|]. split; [reflexivity|].
  destruct (@repeated_wait_never_consumes _ _ _ future_contract 3 handle
              one_pending 0 yields_42 eq_refl eq_refl)
    as (w' & Hrun & Hs & Hn & _).
  exists w'. split; [exact Hrun|]. split; [exact Hs|exact Hn].
Defined.

(** Witness for X7. *)
Lemma separate_constructions_do_not_share_witness :
  fut_is_valid yields_42 = true /\
  fut_is_valid will_fail = true /\
  exists a1 a2 s1 s2 w1 w2 l1 l2 w3,
    construct yields_42 nothing = Returns (a1, s1) w1 /\
    construct will_fail w1 = Returns (a2, s2) w2 /\
    variant_ptr_ a1 = Some l1 /\
    variant_ptr_ a2 = Some l2 /\
    l1 <> l2 /\
    after (visit_get 2 l1 w2) = Some w3 /\
    heap w3 !! l2 = Some (Pending will_fail).
Proof.
  split; [reflexivity|]. split; [reflexivity|].
  destruct (@separate_constructions_do_not_share _ _ _ future_contract
              yields_42 will_fail nothing eq_refl eq_refl)
    as (a1 & a2 & s1 & s2 & w1 & w2 & l1 & l2 & Hc1 & Hc2 & Ha1 & Ha2 & Hne
        & _ & Hvisit).
  destruct (Hvisit 0) as (w3 & Hafter & Hs & _).
  exists a1, a2, s1, s2, w1, w2, l1, l2, w3.
  split; [exact Hc1|]. split; [exact Hc2|]. split; [exact Ha1|].
  split; [exact Ha2|]. split; [exact Hne|]. split; [exact Hafter|exact Hs].
Defined.

(** Witness for X8: three threads. *)
Lemma overlapping_visits_retrieve_each_witness :
  heap one_pending !! 0 = Some (Pending yields_42) /\
  exists ts w',
    run_schedule 0 [0; 1; 2; 0; 1; 2] (entering 3 one_pending)
    = Some (ts, w') /\
    retrievals 0 w' = 3.
Proof.
  split; [reflexivity|].
  destruct (@overlapping_visits_retrieve_each _ _ _ future_contract 3
              one_pending 0 yields_42 eq_refl)
    as (ts & w' & Hrun & Hn & _).
  exists ts, w'. split; [exact Hrun|exact Hn].
Defined.

End Usage.
